(** * The geometric kernel of a mesh element

    A shallow embedding of [src/mesh/element.h] (class template
    [Element<M, N, R>] of fdaPDE-core) and the properties of its affine map,
    barycentric conversion, containment test and measure.

    Scalars.  The source computes in [double].  The statements of the main
    development are about the same formulas evaluated in exact arithmetic:
    the scalars are the elements of an arbitrary real closed field [K] (a
    field with an order and square roots), so rounding, infinities and NaN
    are outside that model.  The module [Binary64] evaluates the planar
    volume element in binary64 itself, and shows where the two part.  Two calls into Eigen are read as their mathematical meaning:
    [A.inverse()] is the matrix inverse [invmx A] and [A.determinant()] is
    [\det A].  On a singular matrix Eigen divides by a zero determinant and
    the stored inverse is garbage; [invmx] is total (it returns its argument
    there), and every theorem that depends on the value of the inverse
    assumes that the jacobian is not degenerate.

    Dimensions.  The template parameters [M] (local dimension) and [N]
    (embedding dimension) are natural numbers indexing the matrix types, as
    they index [SMatrix<N, M>] in the source; [if constexpr (N == M)] is a
    test on these indices, followed by a change of type along the equality.
    The order [R] of the element does not occur in any member function
    modelled here. *)

From HB Require Import structures.
From Stdlib Require Import ZArith Lia.
From Stdlib Require Import PrimFloat.
From mathcomp Require Import boot order algebra.
From mathcomp Require Import fingroup perm.
From mathcomp Require Import algC.

Set Implicit Arguments.
Unset Strict Implicit.
Unset Printing Implicit Defensive.

Import GRing.Theory Num.Theory Order.TotalTheory Order.POrderTheory.
Local Open Scope ring_scope.
Delimit Scope Z_scope with bZ.

(** ** Integer types of the interface *)

(** [std::size_t] is 64 bits wide and [unsigned int] 32 bits wide on the
    platforms considered; values of both are integers in range. *)
Definition size_t_bits : Z := 64%bZ.
Definition unsigned_int_bits : Z := 32%bZ.

Definition is_size_t (z : Z) : Prop := (0 <= z < 2 ^ size_t_bits)%bZ.

(** Conversion to [unsigned int], as performed on [return ID_;] in a
    function whose return type is [const unsigned int]: reduction modulo
    2^32. *)
Definition to_unsigned_int (z : Z) : Z := (z mod 2 ^ unsigned_int_bits)%bZ.

(** Modelled from the spec: [ct_factorial] of [utils/compile_time.h], a
    header that is not among the files modelled here; "M! is the same
    compile-time factorial used for node counting".  The range of its
    [unsigned int] result is not represented. *)
Definition ct_factorial (n : nat) : nat := n`!.

(** number of vertices of an M-dimensional element; the arrays of this size
    are indexed by ['I_M.+1] below *)
Definition ct_nvertices (M : nat) : nat := M.+1.

(** number of edges of an M-dimensional element *)
Definition ct_nedges (M : nat) : nat := (M * (M + 1)) %/ 2.

(** number of degrees of freedom of an M-dimensional element of degree R *)
Definition ct_nnodes (M R : nat) : nat :=
  ct_factorial (M + R) %/ (ct_factorial M * ct_factorial R).

Section Kernel.

Variable K : rcfType.

(** [std::numeric_limits<double>::epsilon()], that is 2^-52. *)
Definition epsilon : K := 2 ^- 52.

(** *** Dense vectors: the Eigen operations the element uses *)

(** [v.sum()] *)
Definition vsum n (v : 'cV[K]_n) : K := \sum_i v i 0.

(** [v.squaredNorm()] and [v.norm()] *)
Definition squaredNorm n (v : 'cV[K]_n) : K := \sum_i v i 0 ^+ 2.
Definition norm n (v : 'cV[K]_n) : K := Num.sqrt (squaredNorm v).

(** [u.cross(v)], which Eigen defines for vectors of size 3 only. *)
Definition cross (u v : 'cV[K]_3) : 'cV[K]_3 :=
  let i0 : 'I_3 := ord0 in
  let i1 : 'I_3 := lift ord0 ord0 in
  let i2 : 'I_3 := lift ord0 (lift ord0 ord0) in
  \col_i (if i == i0 then u i1 0 * v i2 0 - u i2 0 * v i1 0
          else if i == i1 then u i2 0 * v i0 0 - u i0 0 * v i2 0
          else u i0 0 * v i1 0 - u i1 0 * v i0 0).

(** [A.col(j) = v]: assignment to one column. *)
Definition set_col m n (A : 'M[K]_(m, n)) (j : 'I_n) (v : 'cV[K]_m) :
  'M[K]_(m, n) :=
  \matrix_(i, k) (if k == j then v i 0 else A i k).

(** [(v.array() >= c).all()] *)
Definition all_ge n (v : 'cV[K]_n) (c : K) : bool := [forall i, c <= v i 0].

(** *** The affine subspace collaborator *)

(** Modelled from the spec: the class [VectorSpace<M, N>] of
    [linear_algebra/vector_space.h], a header that is not among the files
    modelled here.  An object is built from a basis of M vectors of N-space and an
    offset point; what the constructor keeps of them is not visible, so the
    object is the pair of its constructor arguments. *)
Record VectorSpace (M N : nat) : Type := MkVectorSpace {
  basis_ : 'I_M -> 'cV[K]_N;
  offset_ : 'cV[K]_N
}.

(** Modelled from the spec: the "point-to-subspace Euclidean distance query"
    that the subspace object supplies, as the norm of the residual of the
    orthogonal projection onto the span of the basis.  It is one possible
    body for [distance] below and is used for concrete elements only. *)
Definition basis_mx M N (vs : VectorSpace M N) : 'M[K]_(N, M) :=
  \matrix_(i, j) basis_ vs j i 0.

Definition project_into M N (vs : VectorSpace M N) (x : 'cV[K]_N) :
  'cV[K]_N :=
  let B := basis_mx vs in
  B *m (invmx (B^T *m B) *m B^T *m (x - offset_ vs)) + offset_ vs.

Definition euclidean_distance M N (vs : VectorSpace M N) (x : 'cV[K]_N) : K :=
  norm (x - project_into vs x).

(** [VectorSpace::distance], the point-to-subspace distance query.  Its body
    is in the same absent header: it is a parameter of the development, and
    nothing is assumed about it. *)
Variable distance : forall M N : nat, VectorSpace M N -> 'cV[K]_N -> K.

(** *** The element *)

(** The private data members of [Element<M, N, R>].  Identifiers are
    [std::size_t] values, neighbours are [int] values. *)
Record Element (M N : nat) : Type := MkElement {
  ID_ : Z;
  node_ids_ : 'I_M.+1 -> Z;
  coords_ : 'I_M.+1 -> 'cV[K]_N;
  neighbors_ : seq Z;
  boundary_ : bool;
  measure_ : K;
  J_ : 'M[K]_(N, M);
  inv_J_ : 'M[K]_(M, N)
}.

(** [for (j = 0; j < M; ++j) J_.col(j) = coords_[j + 1] - ref;] run on the
    matrix [J0] found in the member before the loop. *)
Definition jacobian_loop M N (coords : 'I_M.+1 -> 'cV[K]_N)
    (J0 : 'M[K]_(N, M)) : 'M[K]_(N, M) :=
  let ref := coords ord0 in
  foldl (fun J j => set_col J j (coords (lift ord0 j) - ref)) J0 (enum 'I_M).

(** The cached inverse: [J_.inverse()] when [N == M], and otherwise the
    generalised inverse [(J_^T * J_).inverse() * J_^T]. *)
Definition jacobian_inverse M N (J : 'M[K]_(N, M)) : 'M[K]_(M, N) :=
  match N =P M with
  | ReflectT e => castmx (erefl M, esym e) (invmx (castmx (e, erefl M) J))
  | ReflectF _ => invmx (J^T *m J) *m J^T
  end.

(** The cached measure.  The member starts at its default initialiser 0 and
    is assigned in the branch selected by the dimensions.  An instantiation
    with [M == 2] and [N] neither 2 nor 3 does not compile (Eigen's [cross]
    takes 3-vectors only); no assignment is recorded for it. *)
Definition element_measure M N (J : 'M[K]_(N, M)) : K :=
  match N =P M with
  | ReflectT e =>
      `|\det (castmx (e, erefl M) J)| / (ct_factorial M)%:R
  | ReflectF _ =>
      match M =P 2%N, N =P 3%N, M =P 1%N with
      | ReflectT e2, ReflectT e3, _ =>
          let J' : 'M[K]_(3, 2) := castmx (e3, e2) J in
          2^-1 * norm (cross (col ord0 J') (col (lift ord0 ord0) J'))
      | _, _, ReflectT e1 =>
          let J' : 'M[K]_(N, 1) := castmx (erefl N, e1) J in
          norm (col ord0 J')
      | _, _, _ => 0
      end
  end.

(** The constructor [Element(ID, node_ids, coords, neighbors, boundary)].
    [J0] stands for the indeterminate content of the member [J_] before the
    loop fills it. *)
Definition make_Element M N (J0 : 'M[K]_(N, M)) (ID : Z)
    (node_ids : 'I_M.+1 -> Z) (coords : 'I_M.+1 -> 'cV[K]_N)
    (neighbors : seq Z) (boundary : bool) : Element M N :=
  let J := jacobian_loop coords J0 in
  {| ID_ := ID; node_ids_ := node_ids; coords_ := coords;
     neighbors_ := neighbors; boundary_ := boundary;
     measure_ := element_measure J;
     J_ := J;
     inv_J_ := jacobian_inverse J |}.

(** Getters. *)
Definition coords M N (e : Element M N) := coords_ e.
Definition neighbors M N (e : Element M N) := neighbors_ e.
Definition ID M N (e : Element M N) : Z := to_unsigned_int (ID_ e).
Definition barycentric_matrix M N (e : Element M N) := J_ e.
Definition inv_barycentric_matrix M N (e : Element M N) := inv_J_ e.
Definition node_ids M N (e : Element M N) := node_ids_ e.
Definition measure M N (e : Element M N) : K := measure_ e.
Definition is_on_boundary M N (e : Element M N) := boundary_ e.

(** [to_barycentric_coords]: solve [J z = x - ref] with the cached inverse
    and prepend [1 - z.sum()]. *)
Definition to_barycentric_coords M N (e : Element M N) (x : 'cV[K]_N) :
  'cV[K]_(1 + M) :=
  let z : 'cV[K]_M := inv_J_ e *m (x - coords_ e ord0) in
  col_mx (1 - vsum z)%:M z.

(** [mid_point]: the barycentric point with all coordinates [1 / (M + 1)]
    mapped to the cartesian reference system. *)
Definition mid_point M N (e : Element M N) : 'cV[K]_N :=
  let barycentric_mid_point : 'cV[K]_M := const_mx (1 / (M + 1)%:R) in
  J_ e *m barycentric_mid_point + coords_ e ord0.

(** [spanned_space]: the space through [coords_[0]] directed by the edges
    leaving it. *)
Definition spanned_space M N (e : Element M N) : VectorSpace M N :=
  MkVectorSpace (fun i : 'I_M => coords_ e (lift ord0 i) - coords_ e ord0)
                (coords_ e ord0).

(** [contains], overload enabled when [is_manifold] is false. *)
Definition contains_volume M N (e : Element M N) (x : 'cV[K]_N) : bool :=
  all_ge (to_barycentric_coords e x) (-10 * epsilon).

(** [contains], overload enabled when [is_manifold] is true. *)
Definition contains_manifold M N (e : Element M N) (x : 'cV[K]_N) : bool :=
  let vs := spanned_space e in
  if 10 * epsilon < distance vs x then false
  else all_ge (to_barycentric_coords e x) (-10 * epsilon).

(** [contains], with the default template argument
    [is_manifold = (N != M)] selecting the overload. *)
Definition contains M N (e : Element M N) (x : 'cV[K]_N) : bool :=
  if N != M then contains_manifold e x else contains_volume e x.

(** *** Closed forms used by the proofs *)

(** The matrix the constructor's loop is expected to leave in [J_]. *)
Definition jacobian M N (c : 'I_M.+1 -> 'cV[K]_N) : 'M[K]_(N, M) :=
  \matrix_(i, j) (c (lift ord0 j) i 0 - c ord0 i 0).

(** The Gram determinant of the edge vectors. *)
Definition gram_det M N (J : 'M[K]_(N, M)) : K := \det (J^T *m J).

(** The vertices in homogeneous coordinates, one column per vertex, and the
    same data read in the frame of vertex 0. *)
Definition homogeneous M N (c : 'I_M.+1 -> 'cV[K]_N) : 'M[K]_(1 + N, 1 + M) :=
  col_mx (const_mx 1) (\matrix_(i, k) c k i 0).

Definition frame M N (c : 'I_M.+1 -> 'cV[K]_N) : 'M[K]_(1 + N, 1 + M) :=
  block_mx 1%:M 0 (c ord0) (jacobian c).

Definition shear M : 'M[K]_(1 + M) := block_mx 1%:M (const_mx 1) 0 1%:M.
Definition unshear M : 'M[K]_(1 + M) := block_mx 1%:M (const_mx (- 1)) 0 1%:M.

(** The change of frame induced by relabelling the vertices along [s]. *)
Definition relabel M (s : {perm 'I_M.+1}) : 'M[K]_(1 + M) :=
  shear M *m perm_mx s^-1 *m unshear M.

(** The unit simplex of M-space placed in N-space: vertex 0 at the origin,
    vertex j + 1 at the j-th unit vector. *)
Definition unit_simplex M N : 'I_M.+1 -> 'cV[K]_N :=
  fun i => if unlift ord0 i is Some j then \col_(r < N) (r == j :> nat)%:R
           else 0.

(** *** The bounding box *)

(** [*std::min_element(first, last)] and [*std::max_element(first, last)]:
    the scan keeps the first smallest (largest) entry, comparing with [<];
    on an empty range the iterator returned is [last] and there is no
    value. *)
Definition min_element (s : seq K) : option K :=
  if s is x :: s' then
    Some (foldl (fun smallest y => if y < smallest then y else smallest) x s')
  else None.

Definition max_element (s : seq K) : option K :=
  if s is x :: s' then
    Some (foldl (fun largest y => if largest < y then y else largest) x s')
  else None.

(** [proj_coords[dim]]: the coordinates of the M + 1 vertices along axis
    [dim], in vertex order. *)
Definition proj_coords M N (e : Element M N) (dim : 'I_N) : seq K :=
  [seq coords_ e j dim 0 | j <- enum 'I_M.+1].

(** [bounding_box]: the pair (lower-left corner, upper-right corner).  The
    projected arrays have M + 1 entries, so the empty case of the scans is
    never taken. *)
Definition bounding_box M N (e : Element M N) : 'cV[K]_N * 'cV[K]_N :=
  (\col_dim odflt 0 (min_element (proj_coords e dim)),
   \col_dim odflt 0 (max_element (proj_coords e dim))).

(** A point lies in a box when it is between the corners on every axis. *)
Definition in_box N (box : 'cV[K]_N * 'cV[K]_N) (x : 'cV[K]_N) : Prop :=
  forall dim, box.1 dim 0 <= x dim 0 <= box.2 dim 0.

(** *** Further closed forms *)

(** The affine combination of the vertices with the given coefficients. *)
Definition affine_combination M N (c : 'I_M.+1 -> 'cV[K]_N)
    (w : 'cV[K]_(1 + M)) : 'cV[K]_N :=
  \sum_i w i 0 *: c i.

(** The dimensions for which the constructor assigns the measure. *)
Definition measure_assigned (M N : nat) : bool :=
  [|| N == M, (M == 2%N) && (N == 3%N) | M == 1%N].

End Kernel.

(** ** Concrete elements, over the real algebraic numbers *)

(** The triangle (0,0), (1,0), (0,1) of the plane. *)
Definition triangle : Element algR 2 2 :=
  make_Element 0 7%bZ (fun i => Z.of_nat i) (@unit_simplex algR 2 2)
    [:: (-1)%bZ; 3%bZ; 4%bZ] true.

(** The triangle (0,0,0), (1,0,0), (0,1,0) of 3-space. *)
Definition surface_triangle : Element algR 2 3 :=
  make_Element 0 8%bZ (fun i => Z.of_nat i) (@unit_simplex algR 2 3)
    [:: (-1)%bZ; 3%bZ; 4%bZ] true.

(** An identifier that does not fit in 32 bits. *)
Definition wide_id : Z := (2 ^ 32 + 5)%bZ.

(** ** The combinatorial constants, in [unsigned int] arithmetic *)

(** [ct_nvertices] and [ct_nedges] as the compiler evaluates them: every
    intermediate result is reduced modulo 2^32. *)
Definition ct_nvertices_uint (M : Z) : Z := to_unsigned_int (M + 1).

Definition ct_nedges_uint (M : Z) : Z :=
  (to_unsigned_int (M * to_unsigned_int (M + 1)) / 2)%bZ.

(** ** The planar volume element in binary64

    The instance [Element<2, 2>] with the scalars the source uses: IEEE 754
    binary64 numbers, with rounding to nearest, overflow to infinity and
    NaN.  It serves to evaluate the code where the exact model and the
    program part.  The calls into Eigen are read as its closed forms for
    2 x 2 matrices: the determinant is [m00 * m11 - m10 * m01], the inverse
    is the adjugate multiplied by [1 / determinant], a matrix-vector product
    is one two-term dot product per row, none of them fused. *)
Module Binary64.

Local Open Scope float_scope.

(** [std::numeric_limits<double>::epsilon()] *)
Definition epsilon : float := 0x1p-52.

(** [SVector<2>], [SVector<3>] and [SMatrix<2, 2>] (entry [mij] is
    [coeff(i, j)]). *)
Definition SVector2 : Set := (float * float)%type.
Definition SVector3 : Set := (float * float * float)%type.

Record SMatrix22 : Set := MkSMatrix22 {
  m00 : float; m01 : float;
  m10 : float; m11 : float
}.

(** [u - v], [u + v], [z.sum()], [A * x] *)
Definition vsub (u v : SVector2) : SVector2 := (u.1 - v.1, u.2 - v.2).
Definition vadd (u v : SVector2) : SVector2 := (u.1 + v.1, u.2 + v.2).
Definition vsum (z : SVector2) : float := z.1 + z.2.
Definition mulmv (A : SMatrix22) (x : SVector2) : SVector2 :=
  (m00 A * x.1 + m01 A * x.2, m10 A * x.1 + m11 A * x.2).

(** [A.col(j) = v] *)
Definition set_col (A : SMatrix22) (j : nat) (v : SVector2) : SMatrix22 :=
  match j with
  | 0%N => MkSMatrix22 v.1 (m01 A) v.2 (m11 A)
  | 1%N => MkSMatrix22 (m00 A) v.1 (m10 A) v.2
  | _ => A
  end.

(** [A.determinant()] and [A.inverse()] *)
Definition determinant (A : SMatrix22) : float :=
  m00 A * m11 A - m10 A * m01 A.

Definition inverse (A : SMatrix22) : SMatrix22 :=
  let invdet := 1 / determinant A in
  MkSMatrix22 (m11 A * invdet) (- m01 A * invdet)
              (- m10 A * invdet) (m00 A * invdet).

(** [std::array<T, 3>] and its subscript. *)
Definition array3 (T : Type) : Type := (T * T * T)%type.

Definition at3 (T : Type) (a : array3 T) (j : nat) : T :=
  match j with
  | 0%N => a.1.1
  | 1%N => a.1.2
  | _ => a.2
  end.

(** The data members of [Element<2, 2, R>]. *)
Record Element : Type := MkElement {
  ID_ : Z;
  node_ids_ : array3 Z;
  coords_ : array3 SVector2;
  neighbors_ : seq Z;
  boundary_ : bool;
  measure_ : float;
  J_ : SMatrix22;
  inv_J_ : SMatrix22
}.

(** The constructor, on the content [J0] found in [J_]: the loop over
    [j = 0, 1], the branch [N == M] of the inverse and the branch [M == N]
    of the measure, where [ct_factorial(2)] is 2. *)
Definition make_Element (J0 : SMatrix22) (ID : Z) (node_ids : array3 Z)
    (coords : array3 SVector2) (neighbors : seq Z) (boundary : bool) :
  Element :=
  let ref := at3 coords 0 in
  let J :=
    foldl (fun J j => set_col J j (vsub (at3 coords (j + 1)) ref)) J0
          (iota 0 2) in
  {| ID_ := ID; node_ids_ := node_ids; coords_ := coords;
     neighbors_ := neighbors; boundary_ := boundary;
     measure_ := abs (determinant J) / 2;
     J_ := J;
     inv_J_ := inverse J |}.

Definition measure (e : Element) : float := measure_ e.
Definition barycentric_matrix (e : Element) : SMatrix22 := J_ e.

(** [to_barycentric_coords] *)
Definition to_barycentric_coords (e : Element) (x : SVector2) : SVector3 :=
  let z := mulmv (inv_J_ e) (vsub x (at3 (coords_ e) 0)) in
  (1 - vsum z, z.1, z.2).

(** [mid_point], with [1.0 / (M + 1)] for M = 2 *)
Definition mid_point (e : Element) : SVector2 :=
  let barycentric_mid_point : SVector2 := (1 / 3, 1 / 3) in
  vadd (mulmv (J_ e) barycentric_mid_point) (at3 (coords_ e) 0).

(** [contains], the overload of volume elements *)
Definition contains (e : Element) (x : SVector2) : bool :=
  let r := to_barycentric_coords e x in
  [&& -10 * epsilon <=? r.1.1, -10 * epsilon <=? r.1.2
    & -10 * epsilon <=? r.2].

(** A matrix standing for the content of [J_] before the loop. *)
Definition J_before : SMatrix22 := MkSMatrix22 0 0 0 0.


(** The triangle (1e16, 1e16), (1e16 + 4, 1e16 + 6), (1e16, 1e16 + 2). *)
Definition far_triangle : Element :=
  make_Element J_before 2%bZ (0%bZ, 1%bZ, 2%bZ)
    ((1e16, 1e16), (1e16 + 4, 1e16 + 6), (1e16, 1e16 + 2)) [::] false.

(** The triangle (0, 0), (1, 0), (0, 1). *)
Definition unit_triangle : Element :=
  make_Element J_before 3%bZ (0%bZ, 1%bZ, 2%bZ)
    ((0, 0), (1, 0), (0, 1)) [::] false.

End Binary64.

(** ** Properties of the constructor *)

Section Construction.

Variable K : rcfType.

(** The loop writes column [k] when it reaches [k] and leaves the other
    columns as they are. *)
Lemma foldl_set_col m n (v : 'I_n -> 'cV[K]_m) (s : seq 'I_n)
    (A : 'M[K]_(m, n)) i k :
  foldl (fun J j => set_col J j (v j)) A s i k =
  if k \in s then v k i 0 else A i k.
Proof.
elim: s A => [|j s IH] A //=.
rewrite IH in_cons /set_col mxE.
case: (k \in s); rewrite ?orbT ?orbF //.
by case: eqP => // ->.
Qed.

Lemma jacobian_loopE M N (c : 'I_M.+1 -> 'cV[K]_N) J0 :
  jacobian_loop c J0 = jacobian c.
Proof.
apply/matrixP => i j.
by rewrite /jacobian_loop foldl_set_col mem_enum !mxE.
Qed.

Lemma col_jacobian M N (c : 'I_M.+1 -> 'cV[K]_N) j :
  col j (jacobian c) = c (lift ord0 j) - c ord0.
Proof. by apply/matrixP => i k; rewrite !mxE !ord1. Qed.

Lemma jacobian_inverse_square M (J : 'M[K]_M) : jacobian_inverse J = invmx J.
Proof.
rewrite /jacobian_inverse; case: eqP => // e.
by rewrite (eq_axiomK e) /= !castmx_id.
Qed.

Lemma jacobian_inverse_manifold M N (J : 'M[K]_(N, M)) :
  N != M -> jacobian_inverse J = invmx (J^T *m J) *m J^T.
Proof. by rewrite /jacobian_inverse; case: eqP. Qed.

Lemma measure_square M (J : 'M[K]_M) :
  element_measure J = `|\det J| / (M`!)%:R.
Proof.
rewrite /element_measure; case: eqP => // e.
by rewrite (eq_axiomK e) /= !castmx_id.
Qed.




End Construction.

(** ** Full column rank and the generalised inverse *)

Section LeftInverse.

Variable K : rcfType.

Lemma mulmx_trmx_eq0 m n (A : 'M[K]_(m, n)) : A *m A^T = 0 -> A = 0.
Proof.
move=> h; apply/matrixP => i j; rewrite [RHS]mxE.
have := congr1 (fun X : 'M_m => X i i) h; rewrite !mxE => hs.
have hp k : true -> 0 <= A i k * A^T k i by rewrite mxE -expr2 sqr_ge0.
have := @psumr_eq0P _ _ _ _ hp hs j isT; rewrite mxE => /eqP.
by rewrite mulf_eq0 orbb => /eqP.
Qed.

Lemma gram_unit M N (J : 'M[K]_(N, M)) : row_full J -> J^T *m J \in unitmx.
Proof.
move=> fJ; rewrite -row_free_unit -kermx_eq0; apply/eqP.
set G := J^T *m J; set Z := kermx G.
have hZ : Z *m J^T = 0.
  apply: mulmx_trmx_eq0; rewrite trmx_mul trmxK mulmxA -(mulmxA Z).
  by rewrite -/G mulmx_ker mul0mx.
have /row_freeP [B hB] : row_free J^T by rewrite /row_free mxrank_tr.
by rewrite -[Z]mulmx1 -hB mulmxA hZ mul0mx.
Qed.

Lemma jacobian_inverse_left M N (J : 'M[K]_(N, M)) :
  row_full J -> jacobian_inverse J *m J = 1%:M.
Proof.
case: (altP (N =P M)) J => [e|ne] J fJ.
  subst N; rewrite jacobian_inverse_square mulVmx //.
  by rewrite -row_full_unit.
by rewrite jacobian_inverse_manifold // -mulmxA mulVmx // gram_unit.
Qed.

End LeftInverse.

(** ** Entries of a stacked vector *)

Section Stacked.

Variable K : rcfType.

Lemma col_mx_head n (a : K) (z : 'cV[K]_n) :
  (col_mx a%:M z : 'cV_(1 + n)) ord0 0 = a.
Proof.
have -> : (ord0 : 'I_(1 + n)) = lshift n ord0 by apply: val_inj.
by rewrite col_mxEu mxE eqxx.
Qed.

Lemma col_mx_tail n (a : K) (z : 'cV[K]_n) (j : 'I_n) :
  (col_mx a%:M z : 'cV_(1 + n)) (lift ord0 j) 0 = z j 0.
Proof.
have -> : (lift ord0 j : 'I_(1 + n)) = rshift 1 j by apply: val_inj.
by rewrite col_mxEd.
Qed.

Lemma vsum_col_mx n (a : K) (z : 'cV[K]_n) :
  vsum (col_mx a%:M z : 'cV_(1 + n)) = a + vsum z.
Proof.
rewrite /vsum big_split_ord /= big_ord1 col_mxEu mxE eqxx.
by congr (_ + _); apply: eq_bigr => i _; rewrite col_mxEd.
Qed.

Lemma vsum0 n : vsum (0 : 'cV[K]_n) = 0.
Proof. by rewrite /vsum big1 // => i _; rewrite mxE. Qed.

Lemma vsum_delta n (j : 'I_n) : vsum (delta_mx j 0 : 'cV[K]_n) = 1.
Proof.
rewrite /vsum (bigD1 j) //= mxE !eqxx big1 ?addr0 // => i /negbTE ne.
by rewrite mxE ne.
Qed.

Lemma vsum_const n (a : K) : vsum (const_mx a : 'cV[K]_n) = a *+ n.
Proof.
rewrite /vsum -[n in RHS]card_ord -sumr_const.
by apply: eq_bigr => i _; rewrite mxE.
Qed.

(** The barycentric coordinates of vertex [i], once the cached matrix is a
    left inverse of the jacobian. *)
Lemma barycentric_vertex M N (c : 'I_M.+1 -> 'cV[K]_N) (Ji : 'M[K]_(M, N))
    (i k : 'I_M.+1) :
  Ji *m jacobian c = 1%:M ->
  let z : 'cV[K]_M := Ji *m (c i - c ord0) in
  (col_mx (1 - vsum z)%:M z : 'cV_(1 + M)) k 0 = (k == i)%:R.
Proof.
move=> hJ /=; case: (unliftP ord0 i) => [j ->|->].
  rewrite -col_jacobian colE mulmxA hJ mul1mx vsum_delta subrr.
  case: (unliftP ord0 k) => [k' ->|->].
    by rewrite col_mx_tail mxE eqxx andbT (inj_eq lift_inj).
  by rewrite col_mx_head eq_liftF.
rewrite subrr mulmx0 vsum0 subr0.
case: (unliftP ord0 k) => [k' ->|->].
  by rewrite col_mx_tail mxE lift_eqF.
by rewrite col_mx_head eqxx.
Qed.

Lemma epsilon_gt0 : 0 < epsilon K.
Proof. by rewrite /epsilon invr_gt0 exprn_gt0 // ltr0n. Qed.

Lemma tolerance_le0 : -10 * epsilon K <= 0.
Proof.
by rewrite mulNr oppr_le0 mulr_ge0 ?ler0n // ltW // epsilon_gt0.
Qed.

End Stacked.

(** ** Relabelling the vertices *)

Section Relabel.

Variable K : rcfType.

Lemma shearK M : shear K M *m unshear K M = 1%:M.
Proof.
rewrite /shear /unshear mulmx_block !mul1mx !mul0mx !mulmx1 !mulmx0 !addr0 add0r.
rewrite [RHS]scalar_mx_block; congr block_mx.
by apply/matrixP => i j; rewrite !mxE addNr.
Qed.

Lemma homogeneous_frame M N (c : 'I_M.+1 -> 'cV[K]_N) :
  homogeneous c = frame c *m shear K M.
Proof.
rewrite /frame /shear mulmx_block !mul1mx !mul0mx !mulmx0 !mulmx1 !addr0.
rewrite /homogeneous /block_mx; congr col_mx.
  apply/matrixP => i k; rewrite !mxE; case: splitP => k' _; rewrite !mxE //.
  by rewrite !ord1.
apply/matrixP => i k; rewrite !mxE; case: splitP => k' hk; rewrite ?mxE.
  have -> : k = ord0 by apply: val_inj => /=; rewrite hk ord1.
  by rewrite [k']ord1.
have -> : k = lift ord0 k' by apply: val_inj => /=; rewrite hk.
by rewrite big_ord1 !mxE mulr1 addrC subrK.
Qed.

Lemma homogeneous_perm M N (c : 'I_M.+1 -> 'cV[K]_N) (s : {perm 'I_M.+1}) :
  homogeneous (c \o s) = homogeneous c *m perm_mx s^-1.
Proof.
rewrite -col_permE; apply/matrixP => i k.
by rewrite !mxE; case: splitP => i' _; rewrite !mxE.
Qed.

Lemma frame_perm M N (c : 'I_M.+1 -> 'cV[K]_N) (s : {perm 'I_M.+1}) :
  frame (c \o s) = frame c *m relabel K s.
Proof.
rewrite /relabel !mulmxA -homogeneous_frame -homogeneous_perm homogeneous_frame.
by rewrite -mulmxA shearK mulmx1.
Qed.

Lemma det_relabel M (s : {perm 'I_M.+1}) : \det (relabel K s) = (-1) ^+ odd_perm s^-1.
Proof.
rewrite /relabel !det_mulmx det_perm /shear /unshear !det_ublock !det1.
by rewrite !mul1r mulr1.
Qed.

Lemma jacobian_perm M N (c : 'I_M.+1 -> 'cV[K]_N) (s : {perm 'I_M.+1}) :
  exists2 T : 'M[K]_M, jacobian (c \o s) = jacobian c *m T & (\det T) ^+ 2 = 1.
Proof.
have := frame_perm c s; rewrite -[relabel K s]submxK /frame mulmx_block.
rewrite !mul1mx !mul0mx !addr0 => /eq_block_mx [hul hur _ hdr].
exists (drsubmx (relabel K s)).
  by rewrite hdr -hur mulmx0 add0r.
have: \det (relabel K s) = \det (drsubmx (relabel K s)).
  by rewrite -{1}[relabel K s]submxK -hul -hur det_lblock det1 mul1r.
by rewrite det_relabel => <-; rewrite -exprM mulnC exprM sqrrN !expr1n.
Qed.

Lemma gram_det_mulmx M N (J : 'M[K]_(N, M)) (T : 'M[K]_M) :
  gram_det (J *m T) = gram_det J * (\det T) ^+ 2.
Proof.
rewrite /gram_det trmx_mul !mulmxA !det_mulmx -!mulmxA det_mulmx det_tr.
by rewrite expr2 mulrCA mulrA.
Qed.

End Relabel.

(** ** The measure as a function of the Gram determinant *)

Section MeasureGram.

Variable K : rcfType.

Lemma det_mx22 (A : 'M[K]_2) :
  \det A = A ord0 ord0 * A (lift ord0 ord0) (lift ord0 ord0)
           - A ord0 (lift ord0 ord0) * A (lift ord0 ord0) ord0.
Proof.
rewrite (expand_det_row A ord0) !big_ord_recl big_ord0 addr0 /cofactor.
rewrite !det_mx11 !mxE /= expr0 expr1 mul1r mulN1r mulrN.
by congr (_ * A _ _ - _ * A _ _); apply: val_inj.
Qed.

Lemma abs_det_gram M (J : 'M[K]_M) : `|\det J| = Num.sqrt (gram_det J).
Proof. by rewrite /gram_det det_mulmx det_tr -expr2 sqrtr_sqr. Qed.

Lemma segment_gram N (J : 'M[K]_(N, 1)) : squaredNorm (col ord0 J) = gram_det J.
Proof.
rewrite /gram_det det_mx11 /squaredNorm !mxE.
by apply: eq_bigr => i _; rewrite !mxE expr2.
Qed.

Lemma surface_gram (J : 'M[K]_(3, 2)) :
  squaredNorm (cross (col ord0 J) (col (lift ord0 ord0) J)) = gram_det J.
Proof.
rewrite /gram_det det_mx22 /squaredNorm !mxE.
rewrite !big_ord_recl !big_ord0 !mxE /=.
set a0 := J ord0 ord0; set b0 := J ord0 (lift ord0 ord0).
set a1 := J (lift ord0 ord0) ord0; set b1 := J (lift ord0 ord0) (lift ord0 ord0).
set a2 := J (lift ord0 (lift ord0 ord0)) ord0.
set b2 := J (lift ord0 (lift ord0 ord0)) (lift ord0 ord0).
ring.
Qed.

Lemma element_measure_gram M N (J1 J2 : 'M[K]_(N, M)) :
  gram_det J1 = gram_det J2 -> element_measure J1 = element_measure J2.
Proof.
rewrite /element_measure; case: eqP => [e|_].
  by subst N; rewrite /= !castmx_id !abs_det_gram => ->.
case: eqP => [e2|_].
  case: eqP => [e3|_].
    by subst M N => /= h; rewrite !castmx_id /norm !surface_gram h.
  by case: eqP => // e1; have : 2%N = 1%N by rewrite -e2 -e1.
case: eqP => // e1; subst M => /= h.
by rewrite !castmx_id /norm !segment_gram h.
Qed.


End MeasureGram.

(** ** The unit simplex *)

Section UnitSimplex.

Variable K : rcfType.

Lemma jacobian_unit_simplex M : jacobian (@unit_simplex K M M) = 1%:M.
Proof.
apply/matrixP => i j; rewrite !mxE /unit_simplex liftK.
by rewrite unlift_none !mxE subr0.
Qed.

End UnitSimplex.

(** ** The properties of the element *)

Section Properties.

Variable K : rcfType.
Variable distance : forall M N : nat, VectorSpace K M N -> 'cV[K]_N -> K.

(** C1.  Volume element (M = N): [contains(x)] is true exactly when every
    entry of [to_barycentric_coords(x)] is at least -10 times the machine
    epsilon. *)
Theorem contains_volume_iff M (e : Element K M M) (x : 'cV[K]_M) :
  contains distance e x <->
  forall i, -10 * epsilon K <= to_barycentric_coords e x i 0.
Proof.
rewrite /contains eqxx /= /contains_volume /all_ge.
by split=> [/forallP|h]; [|apply/forallP].
Qed.

(** C2.  Manifold element (M < N): [contains(x)] is false as soon as the
    distance from [x] to the space spanned by the element exceeds 10 times
    the machine epsilon; when it does not, [contains(x)] is true exactly
    when every entry of [to_barycentric_coords(x)] is at least -10 times the
    machine epsilon. *)
Theorem contains_manifold_cases M N (e : Element K M N) (x : 'cV[K]_N) :
  (M < N)%N ->
  (10 * epsilon K < distance (spanned_space e) x ->
   contains distance e x = false) /\
  (~~ (10 * epsilon K < distance (spanned_space e) x) ->
   (contains distance e x <->
    forall i, -10 * epsilon K <= to_barycentric_coords e x i 0)).
Proof.
move=> ltMN; rewrite /contains gtn_eqF //= /contains_manifold.
split=> [->//|/negbTE ->].
by rewrite /all_ge; split=> [/forallP|h]; [|apply/forallP].
Qed.



(** C5.  [to_barycentric_coords(x)] has first entry 1 minus the sum of z
    and remaining entries z, where z is the cached inverse applied to
    [x - coords[0]]; its M + 1 entries sum to 1. *)
Theorem to_barycentric_coords_entries M N (e : Element K M N)
    (x : 'cV[K]_N) :
  let z : 'cV[K]_M := inv_barycentric_matrix e *m (x - coords e ord0) in
  [/\ to_barycentric_coords e x ord0 0 = 1 - vsum z,
      forall j : 'I_M, to_barycentric_coords e x (lift ord0 j) 0 = z j 0
    & \sum_i to_barycentric_coords e x i 0 = 1].
Proof.
move=> z; rewrite /to_barycentric_coords -/z; split.
- exact: col_mx_head.
- by move=> j; rewrite col_mx_tail.
- by rewrite -/(vsum _) vsum_col_mx subrK.
Qed.

(** C6.  When the jacobian has full column rank M, the barycentric
    coordinates of vertex i are 1 at position i and 0 elsewhere. *)
Theorem vertex_barycentric_one_hot M N (J0 : 'M[K]_(N, M)) id nids
    (c : 'I_M.+1 -> 'cV[K]_N) nb b (i k : 'I_M.+1) :
  let e := make_Element J0 id nids c nb b in
  row_full (barycentric_matrix e) ->
  to_barycentric_coords e (coords e i) k 0 = (k == i)%:R.
Proof.
rewrite /= /barycentric_matrix /to_barycentric_coords /coords /=.
rewrite jacobian_loopE => fJ.
by apply: barycentric_vertex; apply: jacobian_inverse_left.
Qed.

(** C7.  Round trip on a volume element with invertible jacobian: with z
    the last M entries of [to_barycentric_coords(x)], the point
    [J z + coords[0]] is [x]. *)
Theorem barycentric_round_trip M (J0 : 'M[K]_M) id nids
    (c : 'I_M.+1 -> 'cV[K]_M) nb b (x : 'cV[K]_M) :
  let e := make_Element J0 id nids c nb b in
  barycentric_matrix e \in unitmx ->
  let z : 'cV[K]_M := dsubmx (to_barycentric_coords e x) in
  barycentric_matrix e *m z + coords e ord0 = x.
Proof.
rewrite /= /barycentric_matrix /to_barycentric_coords /coords /= => uJ.
by rewrite col_mxKd jacobian_inverse_square mulmxA mulmxV // mul1mx subrK.
Qed.

(** C8.  In exact arithmetic, on a volume element with invertible jacobian,
    [mid_point()] is the image of the vector with all entries 1/(M+1), all
    M + 1 barycentric coordinates of the mid point are 1/(M+1), and the
    element contains its mid point.  (In binary64 the rounded mid point can
    be rejected; see the last section.) *)
Theorem mid_point_barycentric M (J0 : 'M[K]_M) id nids
    (c : 'I_M.+1 -> 'cV[K]_M) nb b :
  let e := make_Element J0 id nids c nb b in
  barycentric_matrix e \in unitmx ->
  [/\ mid_point e =
      barycentric_matrix e *m const_mx (1 / (M + 1)%:R) + coords e ord0,
      forall i, to_barycentric_coords e (mid_point e) i 0 = 1 / (M + 1)%:R
    & contains distance e (mid_point e) = true].
Proof.
move=> e uJ.
have hb i : to_barycentric_coords e (mid_point e) i 0 = 1 / (M + 1)%:R.
  rewrite /to_barycentric_coords /mid_point /= addrK.
  rewrite jacobian_inverse_square mulmxA mulVmx // mul1mx vsum_const.
  case: (unliftP ord0 i) => [j ->|->]; first by rewrite col_mx_tail mxE.
  rewrite col_mx_head !div1r.
  have nz : ((M + 1)%:R : K) != 0 by rewrite pnatr_eq0 addn1.
  apply: (mulIf nz); rewrite mulrBl mul1r mulrnAl mulVf //.
  by rewrite natrD addrAC subrr add0r.
split=> //; rewrite /contains eqxx /= /contains_volume /all_ge.
apply/forallP => i; rewrite hb (le_trans (tolerance_le0 K)) //.
by rewrite divr_ge0 ?ler01 ?ler0n.
Qed.

(** C9.  Listing the same vertices in a permuted order yields the same
    measure. *)
Theorem measure_permutation_invariant M N (J0 J0' : 'M[K]_(N, M)) id id'
    nids nids' (c : 'I_M.+1 -> 'cV[K]_N) nb nb' b b' (s : {perm 'I_M.+1}) :
  measure (make_Element J0' id' nids' (c \o s) nb' b') =
  measure (make_Element J0 id nids c nb b).
Proof.
rewrite /measure /= !jacobian_loopE; apply: element_measure_gram.
have [T -> hT] := jacobian_perm c s.
by rewrite gram_det_mulmx hT mulr1.
Qed.

(** C10.  [ID()] returns the identifier given to the constructor reduced
    modulo 2^32, and equals that identifier exactly when it is below
    2^32. *)
Theorem ID_truncates M N (J0 : 'M[K]_(N, M)) (id : Z) nids
    (c : 'I_M.+1 -> 'cV[K]_N) nb b :
  is_size_t id ->
  let e := make_Element J0 id nids c nb b in
  ID e = (id mod 2 ^ 32)%bZ /\ (ID e = id <-> (id < 2 ^ 32)%bZ).
Proof.
rewrite /is_size_t /size_t_bits /ID /to_unsigned_int /unsigned_int_bits /=.
move=> [h0 h1]; split=> //; split=> [h|h].
  by rewrite -h; case: (Z.mod_pos_bound id (2 ^ 32)%bZ).
by rewrite Z.mod_small.
Qed.

End Properties.

(** ** The statements at concrete elements *)

Lemma triangle_jacobian : barycentric_matrix triangle = 1%:M.
Proof.
by rewrite /barycentric_matrix /triangle /= jacobian_loopE jacobian_unit_simplex.
Qed.

Lemma triangle_unit : barycentric_matrix triangle \in unitmx.
Proof. by rewrite triangle_jacobian unitmx1. Qed.

(** The scenario of the unit triangle: its measure is one half. *)
Example triangle_measure : measure triangle = 2^-1.
Proof.
rewrite /measure /triangle /= jacobian_loopE jacobian_unit_simplex.
by rewrite measure_square det1 normr1 div1r.
Qed.

(** The unit triangle contains its vertex 0, whose coordinates are (1,0,0). *)
Example triangle_vertex0 :
  to_barycentric_coords triangle (coords triangle ord0) ord0 0 = 1.
Proof.
rewrite /to_barycentric_coords /coords /= subrr mulmx0 col_mx_head.
by rewrite vsum0 subr0.
Qed.

Lemma contains_manifold_cases_witness :
  (2 < 3)%N /\
  ((10 * epsilon algR < euclidean_distance (spanned_space surface_triangle) 0 ->
    contains (@euclidean_distance algR) surface_triangle 0 = false) /\
   (~~ (10 * epsilon algR < euclidean_distance (spanned_space surface_triangle) 0) ->
    (contains (@euclidean_distance algR) surface_triangle 0 <->
     forall i,
       -10 * epsilon algR <= to_barycentric_coords surface_triangle 0 i 0))).
Proof.
split; first by [].
exact: (@contains_manifold_cases algR (@euclidean_distance algR) 2 3 surface_triangle 0 isT).
Defined.


Lemma vertex_barycentric_one_hot_witness :
  row_full (barycentric_matrix triangle) /\
  forall i k : 'I_3,
    to_barycentric_coords triangle (coords triangle i) k 0 = (k == i)%:R.
Proof.
have fJ : row_full (barycentric_matrix triangle).
  by rewrite row_full_unit triangle_unit.
split=> // i k.
exact: (@vertex_barycentric_one_hot algR 2 2 0 7%bZ (fun i => Z.of_nat i)
          (@unit_simplex algR 2 2) [:: (-1)%bZ; 3%bZ; 4%bZ] true i k fJ).
Defined.

Lemma barycentric_round_trip_witness :
  barycentric_matrix triangle \in unitmx /\
  forall x : 'cV[algR]_2,
    barycentric_matrix triangle *m dsubmx (to_barycentric_coords triangle x)
    + coords triangle ord0 = x.
Proof.
split; first exact: triangle_unit.
move=> x.
exact: (@barycentric_round_trip algR 2 0 7%bZ (fun i => Z.of_nat i)
          (@unit_simplex algR 2 2) [:: (-1)%bZ; 3%bZ; 4%bZ] true x
          triangle_unit).
Defined.

Lemma mid_point_barycentric_witness :
  barycentric_matrix triangle \in unitmx /\
  [/\ mid_point triangle =
      barycentric_matrix triangle *m const_mx (1 / (2 + 1)%:R)
      + coords triangle ord0,
      forall i, to_barycentric_coords triangle (mid_point triangle) i 0
                = 1 / (2 + 1)%:R
    & contains (@euclidean_distance algR) triangle (mid_point triangle) = true].
Proof.
split; first exact: triangle_unit.
exact: (@mid_point_barycentric algR (@euclidean_distance algR) 2 0 7%bZ
          (fun i => Z.of_nat i) (@unit_simplex algR 2 2)
          [:: (-1)%bZ; 3%bZ; 4%bZ] true triangle_unit).
Defined.

Lemma ID_truncates_witness :
  is_size_t wide_id /\
  let e := make_Element (0 : 'M[algR]_2) wide_id (fun i => Z.of_nat i)
             (@unit_simplex algR 2 2) [::] false in
  ID e = (wide_id mod 2 ^ 32)%bZ /\ (ID e = wide_id <-> (wide_id < 2 ^ 32)%bZ).
Proof.
have hid : is_size_t wide_id by split; vm_compute.
split; first exact: hid.
exact: (@ID_truncates algR 2 2 0 wide_id (fun i => Z.of_nat i)
          (@unit_simplex algR 2 2) [::] false hid).
Defined.

(** The wide identifier comes back as 5. *)
Example ID_wide :
  ID (make_Element (0 : 'M[algR]_2) wide_id (fun i => Z.of_nat i)
        (@unit_simplex algR 2 2) [::] false) = 5%bZ.
Proof. by []. Qed.

(** ** The scenarios of the specification, on the concrete elements *)

Section Tolerance.

Variable K : rcfType.

Lemma tolerance_lt : 10 * epsilon K < 10^-1.
Proof.
have h : (100%:R : K) < 2 ^+ 52.
  apply: (@lt_le_trans _ _ (2 ^+ 7)); last by apply: ler_weXn2l; rewrite ?ler1n.
  by rewrite -natrX ltr_nat.
rewrite /epsilon ltr_pdivrMr ?exprn_gt0 ?ltr0n // ltr_pdivlMl ?ltr0n //.
by rewrite -natrM.
Qed.

End Tolerance.

Lemma surface_triangle_basis :
  basis_mx (spanned_space surface_triangle) = (pid_mx 2 : 'M[algR]_(3, 2)).
Proof.
apply/matrixP => i j; rewrite !mxE /= /unit_simplex liftK unlift_none.
rewrite !mxE subr0.
by case: eqP => // ->; rewrite ltn_ord.
Qed.

(** The point (0,0,1) is at distance 1 from the plane of the surface
    triangle, and is rejected. *)
Example surface_triangle_out_of_plane :
  contains (@euclidean_distance algR) surface_triangle
    (delta_mx (lift ord0 (lift ord0 ord0)) 0) = false.
Proof.
rewrite /contains /= /contains_manifold.
set x := delta_mx _ _.
suff -> : euclidean_distance (spanned_space surface_triangle) x = 1.
  by rewrite (lt_trans (tolerance_lt algR)) // invf_lt1 ?ltr0n // ltr1n.
rewrite /euclidean_distance /project_into surface_triangle_basis /=.
rewrite /unit_simplex unlift_none subr0 addr0 -!mulmxA.
have -> : (pid_mx 2 : 'M[algR]_(3, 2))^T *m x = 0.
  apply/matrixP => i j; rewrite !mxE big1 // => k _; rewrite !mxE /=.
  case: (altP (k =P lift ord0 (lift ord0 ord0))) => [->|_] /=.
    by rewrite andbF mul0r.
  by rewrite mulr0.
rewrite !mulmx0 subr0 /norm /squaredNorm (bigD1 (lift ord0 (lift ord0 ord0))) //=.
rewrite mxE !eqxx expr1n big1 ?addr0 ?sqrtr1 // => i /negbTE ne.
by rewrite mxE ne expr0n.
Qed.

(** The point (3/5, 3/5) lies outside the unit triangle. *)
Example triangle_outside :
  contains (@euclidean_distance algR) triangle (const_mx (3%:R / 5%:R))
  = false.
Proof.
rewrite /contains /= /contains_volume /all_ge; apply/negbTE/forallPn.
exists ord0; rewrite -ltNge /to_barycentric_coords col_mx_head.
rewrite /triangle /= jacobian_loopE jacobian_unit_simplex.
rewrite jacobian_inverse_square invmx1 mul1mx /unit_simplex unlift_none subr0.
rewrite vsum_const mulNr -opprB ltrN2 (lt_le_trans (tolerance_lt algR)) //.
by lra.
Qed.

(** The point (1/2, 1/2), on the hypotenuse, lies in the unit triangle. *)
Example triangle_boundary :
  contains (@euclidean_distance algR) triangle (const_mx 2^-1) = true.
Proof.
rewrite /contains /= /contains_volume /all_ge; apply/forallP => i.
apply: (le_trans (tolerance_le0 algR)).
rewrite /to_barycentric_coords /triangle /= jacobian_loopE jacobian_unit_simplex.
rewrite jacobian_inverse_square invmx1 mul1mx /unit_simplex unlift_none subr0.
case: (unliftP ord0 i) => [j ->|->].
  by rewrite col_mx_tail mxE invr_ge0 ler0n.
by rewrite col_mx_head vsum_const -mulr_natr mulVf ?subrr // pnatr_eq0.
Qed.


(** ** Scans for the smallest and the largest entry *)

Section Scans.

Variable K : rcfType.

Lemma foldl_min_spec (x : K) (s : seq K) :
  let m := foldl (fun smallest y => if y < smallest then y else smallest) x s in
  m \in x :: s /\ forall y, y \in x :: s -> m <= y.
Proof.
elim: s x => [|a s IH] x /=.
  by split; [rewrite mem_head | move=> y; rewrite inE => /eqP ->].
case: ltP => hax.
  have [hin hle] := IH a; split.
    by move: hin; rewrite !inE => /orP [->|->]; rewrite ?orbT.
  move=> y; rewrite !inE => /or3P [/eqP ->|/eqP ->|hy].
  - by apply: le_trans (ltW hax); apply: hle; rewrite mem_head.
  - by apply: hle; rewrite mem_head.
  - by apply: hle; rewrite inE hy orbT.
have [hin hle] := IH x; split.
  by move: hin; rewrite !inE => /orP [->|->]; rewrite ?orbT.
move=> y; rewrite !inE => /or3P [/eqP ->|/eqP ->|hy].
- by apply: hle; rewrite mem_head.
- by apply: le_trans hax; apply: hle; rewrite mem_head.
- by apply: hle; rewrite inE hy orbT.
Qed.

Lemma foldl_max_spec (x : K) (s : seq K) :
  let m := foldl (fun largest y => if largest < y then y else largest) x s in
  m \in x :: s /\ forall y, y \in x :: s -> y <= m.
Proof.
elim: s x => [|a s IH] x /=.
  by split; [rewrite mem_head | move=> y; rewrite inE => /eqP ->].
case: ltP => hax.
  have [hin hle] := IH a; split.
    by move: hin; rewrite !inE => /orP [->|->]; rewrite ?orbT.
  move=> y; rewrite !inE => /or3P [/eqP ->|/eqP ->|hy].
  - by apply: le_trans (ltW hax) _; apply: hle; rewrite mem_head.
  - by apply: hle; rewrite mem_head.
  - by apply: hle; rewrite inE hy orbT.
have [hin hle] := IH x; split.
  by move: hin; rewrite !inE => /orP [->|->]; rewrite ?orbT.
move=> y; rewrite !inE => /or3P [/eqP ->|/eqP ->|hy].
- by apply: hle; rewrite mem_head.
- by apply: le_trans hax _; apply: hle; rewrite mem_head.
- by apply: hle; rewrite inE hy orbT.
Qed.

Lemma min_element_spec (s : seq K) (v : K) :
  min_element s = Some v -> v \in s /\ forall y, y \in s -> v <= y.
Proof. by case: s => [|x s] //= [<-]; apply: foldl_min_spec. Qed.

Lemma max_element_spec (s : seq K) (v : K) :
  max_element s = Some v -> v \in s /\ forall y, y \in s -> y <= v.
Proof. by case: s => [|x s] //= [<-]; apply: foldl_max_spec. Qed.

Lemma proj_coords_min M N (e : Element K M N) (dim : 'I_N) :
  exists2 v, min_element (proj_coords e dim) = Some v
           & (bounding_box e).1 dim 0 = v.
Proof.
rewrite /bounding_box /= mxE /proj_coords enum_ordSl /=.
by eexists; first reflexivity.
Qed.

Lemma proj_coords_max M N (e : Element K M N) (dim : 'I_N) :
  exists2 v, max_element (proj_coords e dim) = Some v
           & (bounding_box e).2 dim 0 = v.
Proof.
rewrite /bounding_box /= mxE /proj_coords enum_ordSl /=.
by eexists; first reflexivity.
Qed.

Lemma mem_proj_coords M N (e : Element K M N) (dim : 'I_N) (v : K) :
  reflect (exists j, v = coords_ e j dim 0) (v \in proj_coords e dim).
Proof.
apply: (iffP mapP) => [[j _ ->]|[j ->]]; first by exists j.
by exists j; rewrite ?mem_enum.
Qed.

End Scans.

(** ** The bounding box and the convex hull of the vertices *)

Section Box.

Variable K : rcfType.

Lemma vertex_in_box M N (e : Element K M N) (j : 'I_M.+1) (dim : 'I_N) :
  (bounding_box e).1 dim 0 <= coords_ e j dim 0 <= (bounding_box e).2 dim 0.
Proof.
have [lo /min_element_spec [_ hlo] ->] := proj_coords_min e dim.
have [hi /max_element_spec [_ hhi] ->] := proj_coords_max e dim.
by rewrite hlo ?hhi //; apply/mem_proj_coords; exists j.
Qed.

Lemma corner_attained M N (e : Element K M N) (dim : 'I_N) :
  (exists j, (bounding_box e).1 dim 0 = coords_ e j dim 0) /\
  (exists j, (bounding_box e).2 dim 0 = coords_ e j dim 0).
Proof.
have [lo /min_element_spec [/mem_proj_coords hlo _] ->] := proj_coords_min e dim.
by have [hi /max_element_spec [/mem_proj_coords hhi _] ->] := proj_coords_max e dim.
Qed.

Lemma affine_combination_entry M N (c : 'I_M.+1 -> 'cV[K]_N)
    (w : 'cV[K]_(1 + M)) (dim : 'I_N) :
  affine_combination c w dim 0 = \sum_i w i 0 * c i dim 0.
Proof.
by rewrite /affine_combination summxE; apply: eq_bigr => i _; rewrite mxE.
Qed.

Lemma convex_in_box M N (e : Element K M N) (w : 'cV[K]_(1 + M)) :
  (forall i, 0 <= w i 0) -> vsum w = 1 ->
  in_box (bounding_box e) (affine_combination (coords_ e) w).
Proof.
move=> w0 w1 dim; rewrite affine_combination_entry.
rewrite -[(bounding_box e).1 dim 0]mul1r -[(bounding_box e).2 dim 0]mul1r.
rewrite -w1 /vsum !mulr_suml; apply/andP; split.
  apply: ler_sum => i _; apply: ler_wpM2l => //.
  by have /andP [] := vertex_in_box e i dim.
apply: ler_sum => i _; apply: ler_wpM2l => //.
by have /andP [] := vertex_in_box e i dim.
Qed.

Lemma affine_combination_stack M N (c : 'I_M.+1 -> 'cV[K]_N) (a : K)
    (z : 'cV[K]_M) :
  affine_combination c (col_mx a%:M z) =
  a *: c ord0 + \sum_j z j 0 *: c (lift ord0 j).
Proof.
rewrite /affine_combination big_ord_recl col_mx_head; congr (_ + _).
by apply: eq_bigr => j _; rewrite col_mx_tail.
Qed.

Lemma jacobian_mulmx M N (c : 'I_M.+1 -> 'cV[K]_N) (z : 'cV[K]_M) :
  jacobian c *m z = \sum_j z j 0 *: (c (lift ord0 j) - c ord0).
Proof.
apply/matrixP => i k; rewrite mxE summxE ord1.
by apply: eq_bigr => j _; rewrite !mxE mulrC.
Qed.

(** The affine combination of the vertices with coefficients
    [1 - z.sum(), z] is the image of [z] under the affine map. *)
Lemma affine_combination_map M N (c : 'I_M.+1 -> 'cV[K]_N) (z : 'cV[K]_M) :
  affine_combination c (col_mx (1 - vsum z)%:M z) = jacobian c *m z + c ord0.
Proof.
rewrite affine_combination_stack jacobian_mulmx scalerBl scale1r /vsum.
have -> : \sum_j z j 0 *: (c (lift ord0 j) - c ord0) =
          \sum_j z j 0 *: c (lift ord0 j) - (\sum_j z j 0) *: c ord0.
  rewrite scaler_suml -sumrB; apply: eq_bigr => j _.
  by rewrite scalerBr.
by rewrite addrAC [c ord0 + _]addrC addrAC.
Qed.

End Box.

(** ** Linearity of the barycentric map *)

Section Affine.

Variable K : rcfType.

Lemma lin_entry n (A B : 'cV[K]_n) (t s : K) i :
  (t *: A + s *: B) i 0 = t * A i 0 + s * B i 0.
Proof. by rewrite !mxE. Qed.

Lemma vsum_lin n (A B : 'cV[K]_n) (t s : K) :
  vsum (t *: A + s *: B) = t * vsum A + s * vsum B.
Proof.
rewrite /vsum !mulr_sumr -big_split; apply: eq_bigr => i _.
exact: lin_entry.
Qed.

Lemma barycentric_affine M N (e : Element K M N) (x y : 'cV[K]_N) (t : K) i :
  to_barycentric_coords e (t *: x + (1 - t) *: y) i 0 =
  t * to_barycentric_coords e x i 0
  + (1 - t) * to_barycentric_coords e y i 0.
Proof.
rewrite /to_barycentric_coords.
have -> : t *: x + (1 - t) *: y - coords_ e ord0 =
          t *: (x - coords_ e ord0) + (1 - t) *: (y - coords_ e ord0).
  by rewrite !scalerBr addrACA -opprD -scalerDl [t + _]addrC subrK scale1r.
rewrite mulmxDr -!scalemxAr vsum_lin.
case: (unliftP ord0 i) => [j ->|->].
  by rewrite !col_mx_tail lin_entry.
rewrite !col_mx_head !mulrBr !mulr1 !mulrBl !mul1r.
rewrite opprD addrACA; congr (_ + _).
by rewrite addrC subrK.
Qed.

Lemma mid_weight M : 1 - (1 / (M + 1)%:R : K) *+ M = 1 / (M + 1)%:R.
Proof.
rewrite !div1r.
have nz : ((M + 1)%:R : K) != 0 by rewrite pnatr_eq0 addn1.
apply: (mulIf nz); rewrite mulrBl mul1r mulrnAl mulVf //.
by rewrite natrD addrAC subrr add0r.
Qed.

Lemma mid_weight_ge0 M : 0 <= (1 / (M + 1)%:R : K).
Proof. by rewrite divr_ge0 ?ler01 ?ler0n. Qed.

(** The mid point of a constructed element as an affine combination. *)
Lemma mid_point_combination M N (J0 : 'M[K]_(N, M)) id nids
    (c : 'I_M.+1 -> 'cV[K]_N) nb b :
  mid_point (make_Element J0 id nids c nb b) =
  affine_combination c (const_mx (1 / (M + 1)%:R)).
Proof.
rewrite /mid_point /= jacobian_loopE -affine_combination_map.
congr affine_combination; rewrite vsum_const mid_weight.
apply/matrixP => i k; rewrite ord1 [RHS]mxE.
case: (unliftP ord0 i) => [j ->|->]; first by rewrite col_mx_tail mxE.
by rewrite col_mx_head.
Qed.

Lemma gram_inverse M N (J : 'M[K]_(N, M)) :
  row_full J -> J^T *m J *m jacobian_inverse J = J^T.
Proof.
case: (altP (N =P M)) J => [e|ne] J fJ.
  subst N; rewrite jacobian_inverse_square -mulmxA mulmxV ?mulmx1 //.
  by rewrite -row_full_unit.
by rewrite jacobian_inverse_manifold // mulmxA mulmxV ?mul1mx // gram_unit.
Qed.

Lemma jacobian_translate M N (c : 'I_M.+1 -> 'cV[K]_N) (t : 'cV[K]_N) :
  jacobian (fun j => c j + t) = jacobian c.
Proof.
by apply/matrixP => i j; rewrite !mxE opprD addrACA subrr addr0.
Qed.

Lemma jacobian_scale M N (c : 'I_M.+1 -> 'cV[K]_N) (a : K) :
  jacobian (fun j => a *: c j) = a *: jacobian c.
Proof. by apply/matrixP => i j; rewrite !mxE mulrBr. Qed.

Lemma gram_det_scale M N (J : 'M[K]_(N, M)) (a : K) :
  gram_det (a *: J) = (a ^+ M) ^+ 2 * gram_det J.
Proof.
rewrite /gram_det.
have -> : (a *: J)^T = a *: J^T by apply/matrixP => i j; rewrite !mxE.
rewrite -scalemxAl -scalemxAr scalerA detZ.
by rewrite exprMn expr2.
Qed.

End Affine.

(** ** The measure in closed form *)

Section MeasureClosed.

Variable K : rcfType.

Lemma element_measure_sqrt M N (J : 'M[K]_(N, M)) :
  measure_assigned M N ->
  element_measure J = Num.sqrt (gram_det J) / (M`!)%:R.
Proof.
rewrite /measure_assigned /element_measure; case: eqP => [e|_] /=.
  by subst N; rewrite /= !castmx_id abs_det_gram.
case: eqP => [e2|_] /=.
  case: eqP => [e3|_] /=.
    subst M N => _ /=; rewrite !castmx_id /norm surface_gram.
    by rewrite mulrC.
  by case: eqP => // e1; have : 2%N = 1%N by rewrite -e2 -e1.
case: eqP => // e1 _; subst M => /=.
by rewrite !castmx_id /norm segment_gram divr1.
Qed.

Lemma element_measure_unassigned M N (J : 'M[K]_(N, M)) :
  ~~ measure_assigned M N -> element_measure J = 0.
Proof.
rewrite /measure_assigned /element_measure; case: eqP => [e|_] //=.
case: eqP => [e2|_] /=.
  case: eqP => [e3|_] //=.
  by case: eqP.
by case: eqP.
Qed.

Lemma gram_det_ge0 M N (J : 'M[K]_(N, M)) :
  measure_assigned M N -> 0 <= gram_det J.
Proof.
case/or3P => [/eqP e|/andP [/eqP e2 /eqP e3]|/eqP e1].
- by subst N; rewrite /gram_det det_mulmx det_tr -expr2 sqr_ge0.
- subst M N; rewrite -surface_gram /squaredNorm sumr_ge0 // => i _.
  exact: sqr_ge0.
- subst M; rewrite -segment_gram /squaredNorm sumr_ge0 // => i _.
  exact: sqr_ge0.
Qed.

Lemma gram_det_row_full M N (J : 'M[K]_(N, M)) :
  (gram_det J != 0) = row_full J.
Proof.
rewrite /gram_det -unitfE -unitmxE; apply/idP/idP => [uG|]; last exact: gram_unit.
by apply/row_fullP; exists (invmx (J^T *m J) *m J^T); rewrite -mulmxA mulVmx.
Qed.

Lemma element_measure_gt0 M N (J : 'M[K]_(N, M)) :
  measure_assigned M N -> (0 < element_measure J) = row_full J.
Proof.
move=> hA; rewrite element_measure_sqrt // -gram_det_row_full.
rewrite pmulr_lgt0 ?invr_gt0 ?ltr0n ?fact_gt0 //.
by rewrite sqrtr_gt0 lt_def gram_det_ge0 // andbT.
Qed.

Lemma element_measure_scale M N (J : 'M[K]_(N, M)) (a : K) :
  element_measure (a *: J) = `|a| ^+ M * element_measure J.
Proof.
case hA: (measure_assigned M N); last first.
  by rewrite !element_measure_unassigned ?hA // mulr0.
rewrite !element_measure_sqrt // gram_det_scale sqrtrM ?sqr_ge0 //.
by rewrite sqrtr_sqr normrX mulrA.
Qed.

End MeasureClosed.

(** ** Points rebuilt from their barycentric coordinates *)

Section Rebuild.

Variable K : rcfType.
Variable distance : forall M N : nat, VectorSpace K M N -> 'cV[K]_N -> K.

(** The vertices weighted by the barycentric coordinates of [x] give the
    image under the affine map of the solution [z]. *)
Lemma rebuild_map M N (J0 : 'M[K]_(N, M)) id nids (c : 'I_M.+1 -> 'cV[K]_N)
    nb b (x : 'cV[K]_N) :
  let e := make_Element J0 id nids c nb b in
  affine_combination c (to_barycentric_coords e x) =
  jacobian c *m (jacobian_inverse (jacobian c) *m (x - c ord0)) + c ord0.
Proof.
by rewrite /= /to_barycentric_coords /= jacobian_loopE affine_combination_map.
Qed.

Lemma rebuild_volume M (J0 : 'M[K]_M) id nids (c : 'I_M.+1 -> 'cV[K]_M)
    nb b (x : 'cV[K]_M) :
  let e := make_Element J0 id nids c nb b in
  barycentric_matrix e \in unitmx ->
  affine_combination c (to_barycentric_coords e x) = x.
Proof.
rewrite /= rebuild_map /barycentric_matrix /= jacobian_loopE => uJ.
by rewrite jacobian_inverse_square mulmxA mulmxV // mul1mx subrK.
Qed.

Lemma barycentric_sum M N (e : Element K M N) (x : 'cV[K]_N) :
  vsum (to_barycentric_coords e x) = 1.
Proof. by rewrite /to_barycentric_coords vsum_col_mx subrK. Qed.

Lemma barycentric_image M N (J0 : 'M[K]_(N, M)) id nids
    (c : 'I_M.+1 -> 'cV[K]_N) nb b (z : 'cV[K]_M) :
  let e := make_Element J0 id nids c nb b in
  row_full (barycentric_matrix e) ->
  to_barycentric_coords e (barycentric_matrix e *m z + coords e ord0) =
  col_mx (1 - vsum z)%:M z.
Proof.
rewrite /= /barycentric_matrix /to_barycentric_coords /coords /=.
rewrite jacobian_loopE => fJ.
by rewrite addrK mulmxA jacobian_inverse_left // mul1mx.
Qed.

Lemma volume_contains_vertex M (J0 : 'M[K]_M) id nids
    (c : 'I_M.+1 -> 'cV[K]_M) nb b (i : 'I_M.+1) :
  let e := make_Element J0 id nids c nb b in
  barycentric_matrix e \in unitmx ->
  contains distance e (coords e i).
Proof.
rewrite /= /barycentric_matrix /contains eqxx /= /contains_volume /all_ge.
rewrite /to_barycentric_coords /coords /= jacobian_loopE => uJ.
apply/forallP => k; apply: (le_trans (tolerance_le0 K)).
rewrite barycentric_vertex ?ler0n //.
by rewrite jacobian_inverse_square mulVmx.
Qed.

Lemma volume_contains_convex M (e : Element K M M) (x y : 'cV[K]_M) (t : K) :
  contains distance e x -> contains distance e y -> 0 <= t <= 1 ->
  contains distance e (t *: x + (1 - t) *: y).
Proof.
rewrite /contains eqxx /= /contains_volume /all_ge.
move=> /forallP hx /forallP hy /andP [t0 t1]; apply/forallP => i.
rewrite barycentric_affine.
have -> : -10 * epsilon K = t * (-10 * epsilon K) + (1 - t) * (-10 * epsilon K).
  by rewrite -mulrDl addrC subrK mul1r.
by rewrite lerD // ler_wpM2l // subr_ge0.
Qed.

End Rebuild.

(** ** The integer constants *)

Section Constants.

Local Open Scope Z_scope.

Lemma even_product (M : Z) : exists k, M * (M + 1) = 2 * k.
Proof.
case: (Z.Even_or_Odd M) => [[k ->]|[k ->]].
  by exists (k * (2 * k + 1)); lia.
by exists ((2 * k + 1) * (k + 1)); lia.
Qed.

Lemma small_product (M : Z) : 0 <= M < 2 ^ 16 -> 0 <= M * (M + 1) < 2 ^ 32.
Proof.
move=> [h0 h1]; have -> : 2 ^ 32 = 2 ^ 16 * 2 ^ 16 by [].
by split; nia.
Qed.

End Constants.

(** ** Further properties of the element *)

Section Further.

Variable K : rcfType.
Variable distance : forall M N : nat, VectorSpace K M N -> 'cV[K]_N -> K.

(** X1.  Every vertex of an element lies in its bounding box. *)
Theorem bounding_box_contains_vertices M N (e : Element K M N)
    (j : 'I_M.+1) :
  in_box (bounding_box e) (coords e j).
Proof. by move=> dim; apply: vertex_in_box. Qed.

(** X2.  On every axis, each corner of the bounding box takes the
    coordinate of some vertex. *)
Theorem bounding_box_corners_attained M N (e : Element K M N) (dim : 'I_N) :
  (exists j, (bounding_box e).1 dim 0 = coords e j dim 0) /\
  (exists j, (bounding_box e).2 dim 0 = coords e j dim 0).
Proof. exact: corner_attained. Qed.


(** X4.  The bounding box does not depend on the order in which the
    vertices are listed. *)
Theorem bounding_box_permutation_invariant M N (J0 J0' : 'M[K]_(N, M))
    id id' nids nids' (c : 'I_M.+1 -> 'cV[K]_N) nb nb' b b'
    (s : {perm 'I_M.+1}) :
  bounding_box (make_Element J0' id' nids' (c \o s) nb' b') =
  bounding_box (make_Element J0 id nids c nb b).
Proof.
set e' := make_Element J0' _ _ _ _ _; set e := make_Element J0 _ _ _ _ _.
have hc j : coords_ e' j = coords_ e (s j) by [].
have hc' j : coords_ e j = coords_ e' ((s^-1)%g j) by rewrite hc permKV.
rewrite [LHS]surjective_pairing [RHS]surjective_pairing.
congr (_, _); apply/matrixP => dim k; rewrite !ord1; apply: le_anti.
  have [[j' hl'] _] := corner_attained e' dim.
  have [[j hl] _] := corner_attained e dim.
  apply/andP; split.
    rewrite [X in _ <= X]hl hc'.
    by have /andP [] := vertex_in_box e' ((s^-1)%g j) dim.
  rewrite [X in _ <= X]hl' hc.
  by have /andP [] := vertex_in_box e (s j') dim.
have [_ [j' hu']] := corner_attained e' dim.
have [_ [j hu]] := corner_attained e dim.
apply/andP; split.
  rewrite [X in X <= _]hu' hc.
  by have /andP [] := vertex_in_box e (s j') dim.
rewrite [X in X <= _]hu hc'.
by have /andP [] := vertex_in_box e' ((s^-1)%g j) dim.
Qed.

(** X5.  The mid point of a constructed element is the average of its
    M + 1 vertices. *)
Theorem mid_point_centroid M N (J0 : 'M[K]_(N, M)) id nids
    (c : 'I_M.+1 -> 'cV[K]_N) nb b :
  mid_point (make_Element J0 id nids c nb b) =
  (1 / (M + 1)%:R) *: \sum_j c j.
Proof.
rewrite mid_point_combination /affine_combination scaler_sumr.
by apply: eq_bigr => j _; rewrite mxE.
Qed.

(** X6.  In exact arithmetic, the mid point of a constructed element lies
    in its bounding box. *)
Theorem mid_point_in_bounding_box M N (J0 : 'M[K]_(N, M)) id nids
    (c : 'I_M.+1 -> 'cV[K]_N) nb b :
  let e := make_Element J0 id nids c nb b in
  in_box (bounding_box e) (mid_point e).
Proof.
rewrite /= mid_point_combination.
apply: (@convex_in_box _ _ _ (make_Element J0 id nids c nb b)).
  by move=> i; rewrite mxE mid_weight_ge0.
rewrite vsum_const -mulr_natr mul1r [(1 + M)%N]addnC mulVf //.
by rewrite pnatr_eq0 addn1.
Qed.

(** X7.  In exact arithmetic, on a volume element with invertible jacobian,
    the barycentric coordinates of [x] are the coefficients of [x] as an
    affine combination of the vertices. *)
Theorem barycentric_reconstruction M (J0 : 'M[K]_M) id nids
    (c : 'I_M.+1 -> 'cV[K]_M) nb b (x : 'cV[K]_M) :
  let e := make_Element J0 id nids c nb b in
  barycentric_matrix e \in unitmx ->
  affine_combination (coords e) (to_barycentric_coords e x) = x.
Proof. exact: rebuild_volume. Qed.

(** X8.  In exact arithmetic, on an element of any dimensions whose
    jacobian has full column rank, the point rebuilt from the barycentric
    coordinates of [x] is the orthogonal projection of [x] on the space of
    the element: the residual is orthogonal to every edge leaving
    vertex 0. *)
Theorem barycentric_projection M N (J0 : 'M[K]_(N, M)) id nids
    (c : 'I_M.+1 -> 'cV[K]_N) nb b (x : 'cV[K]_N) :
  let e := make_Element J0 id nids c nb b in
  row_full (barycentric_matrix e) ->
  (barycentric_matrix e)^T
  *m (x - affine_combination (coords e) (to_barycentric_coords e x)) = 0.
Proof.
rewrite /= /coords /= rebuild_map /barycentric_matrix /= jacobian_loopE => fJ.
rewrite opprD addrA [x + _]addrC -addrA mulmxDr mulmxN !mulmxA.
by rewrite gram_inverse // addrC subrr.
Qed.

(** X9.  In exact arithmetic and with full column rank, the barycentric
    coordinates of the image
    [J z + coords[0]] of [z] are [1 - z.sum()] followed by [z]. *)
Theorem barycentric_of_image M N (J0 : 'M[K]_(N, M)) id nids
    (c : 'I_M.+1 -> 'cV[K]_N) nb b (z : 'cV[K]_M) :
  let e := make_Element J0 id nids c nb b in
  row_full (barycentric_matrix e) ->
  to_barycentric_coords e (barycentric_matrix e *m z + coords e ord0) =
  col_mx (1 - vsum z)%:M z.
Proof. exact: barycentric_image. Qed.

(** X10.  In exact arithmetic and with full column rank, on an element of
    any dimensions, all M + 1 barycentric coordinates of the mid point are 1/(M+1). *)
Theorem mid_point_barycentric_any M N (J0 : 'M[K]_(N, M)) id nids
    (c : 'I_M.+1 -> 'cV[K]_N) nb b (i : 'I_(1 + M)) :
  let e := make_Element J0 id nids c nb b in
  row_full (barycentric_matrix e) ->
  to_barycentric_coords e (mid_point e) i 0 = 1 / (M + 1)%:R.
Proof.
move=> e fJ; rewrite [mid_point e]/mid_point.
rewrite -[J_ e]/(barycentric_matrix e) -[coords_ e]/(coords e).
rewrite barycentric_image // vsum_const mid_weight.
case: (unliftP ord0 i) => [j ->|->]; first by rewrite col_mx_tail mxE.
by rewrite col_mx_head.
Qed.

(** X11.  In exact arithmetic, [to_barycentric_coords] is an affine map of
    the point. *)
Theorem to_barycentric_coords_affine M N (e : Element K M N)
    (x y : 'cV[K]_N) (t : K) :
  to_barycentric_coords e (t *: x + (1 - t) *: y) =
  t *: to_barycentric_coords e x + (1 - t) *: to_barycentric_coords e y.
Proof.
apply/matrixP => i k; rewrite !ord1 barycentric_affine.
by rewrite lin_entry.
Qed.

(** X12.  In exact arithmetic, the set of points a volume element accepts
    is convex. *)
Theorem contains_volume_convex M (e : Element K M M) (x y : 'cV[K]_M)
    (t : K) :
  contains distance e x -> contains distance e y -> 0 <= t <= 1 ->
  contains distance e (t *: x + (1 - t) *: y).
Proof. exact: volume_contains_convex. Qed.

(** X13.  In exact arithmetic, a volume element with invertible jacobian
    contains each of its vertices. *)
Theorem contains_vertices M (J0 : 'M[K]_M) id nids
    (c : 'I_M.+1 -> 'cV[K]_M) nb b (i : 'I_M.+1) :
  let e := make_Element J0 id nids c nb b in
  barycentric_matrix e \in unitmx ->
  contains distance e (coords e i).
Proof. exact: volume_contains_vertex. Qed.

(** X14.  In exact arithmetic, moving all vertices by the same vector
    leaves the jacobian, the
    cached inverse and the measure unchanged, and the barycentric
    coordinates follow the point. *)
Theorem translation_invariant M N (J0 J0' : 'M[K]_(N, M)) id id' nids nids'
    (c : 'I_M.+1 -> 'cV[K]_N) nb nb' b b' (t : 'cV[K]_N) :
  let e := make_Element J0 id nids c nb b in
  let e' := make_Element J0' id' nids' (fun j => c j + t) nb' b' in
  [/\ barycentric_matrix e' = barycentric_matrix e,
      inv_barycentric_matrix e' = inv_barycentric_matrix e,
      measure e' = measure e
    & forall x, to_barycentric_coords e' (x + t) = to_barycentric_coords e x].
Proof.
rewrite /= /barycentric_matrix /inv_barycentric_matrix /measure.
rewrite /to_barycentric_coords /= !jacobian_loopE jacobian_translate.
by split=> // x; rewrite opprD addrACA subrr addr0.
Qed.

(** X15.  In exact arithmetic, scaling all vertices by [a] multiplies the
    measure by |a|^M. *)
Theorem measure_scaling M N (J0 J0' : 'M[K]_(N, M)) id id' nids nids'
    (c : 'I_M.+1 -> 'cV[K]_N) nb nb' b b' (a : K) :
  measure (make_Element J0' id' nids' (fun j => a *: c j) nb' b') =
  `|a| ^+ M * measure (make_Element J0 id nids c nb b).
Proof.
by rewrite /measure /= !jacobian_loopE jacobian_scale element_measure_scale.
Qed.

(** X16.  In exact arithmetic, in every case where the constructor assigns
    it, the measure is the square root of the Gram determinant of the jacobian divided by M!;
    for the other dimensions it keeps its initial value 0. *)
Theorem measure_gram_formula M N (J0 : 'M[K]_(N, M)) id nids
    (c : 'I_M.+1 -> 'cV[K]_N) nb b :
  let e := make_Element J0 id nids c nb b in
  measure e =
  if measure_assigned M N
  then Num.sqrt (gram_det (barycentric_matrix e)) / (M`!)%:R
  else 0.
Proof.
rewrite /= /measure /barycentric_matrix /=.
case hA: (measure_assigned M N); first exact: element_measure_sqrt.
by rewrite element_measure_unassigned // hA.
Qed.

(** X17.  In exact arithmetic, where the constructor assigns the measure,
    it is positive exactly when the jacobian has full column rank. *)
Theorem measure_positive_iff M N (J0 : 'M[K]_(N, M)) id nids
    (c : 'I_M.+1 -> 'cV[K]_N) nb b :
  let e := make_Element J0 id nids c nb b in
  measure_assigned M N ->
  (0 < measure e) = row_full (barycentric_matrix e).
Proof. by move=> /= hA; rewrite /measure /= element_measure_gt0. Qed.

(** X18.  In exact arithmetic, on a volume element with invertible
    jacobian, a point whose barycentric coordinates are all nonnegative lies in the bounding
    box. *)
Theorem nonnegative_barycentric_in_box M (J0 : 'M[K]_M) id nids
    (c : 'I_M.+1 -> 'cV[K]_M) nb b (x : 'cV[K]_M) :
  let e := make_Element J0 id nids c nb b in
  barycentric_matrix e \in unitmx ->
  (forall i, 0 <= to_barycentric_coords e x i 0) ->
  in_box (bounding_box e) x.
Proof.
move=> e uJ h0.
have hx : affine_combination c (to_barycentric_coords e x) = x.
  exact: (@rebuild_volume K M J0 id nids c nb b x uJ).
rewrite -[x in in_box _ x]hx.
by apply: (@convex_in_box _ _ _ e) => //; apply: barycentric_sum.
Qed.

(** X19.  The basis handed to the subspace object by [spanned_space] is
    made of the columns of the cached jacobian, and its offset is
    vertex 0. *)
Theorem spanned_space_jacobian M N (J0 : 'M[K]_(N, M)) id nids
    (c : 'I_M.+1 -> 'cV[K]_N) nb b :
  let e := make_Element J0 id nids c nb b in
  (forall i, basis_ (spanned_space e) i = col i (barycentric_matrix e)) /\
  offset_ (spanned_space e) = coords e ord0.
Proof.
rewrite /= /barycentric_matrix /= jacobian_loopE; split=> // i.
by rewrite col_jacobian.
Qed.

(** X20.  Two identifiers that differ by 2^32 give elements with the same
    [ID()]. *)
Theorem ID_collision M N (J0 J0' : 'M[K]_(N, M)) (id : Z) nids nids'
    (c c' : 'I_M.+1 -> 'cV[K]_N) nb nb' b b' :
  is_size_t id -> is_size_t (id + 2 ^ 32)%bZ ->
  ID (make_Element J0' (id + 2 ^ 32)%bZ nids' c' nb' b') =
  ID (make_Element J0 id nids c nb b).
Proof.
move=> _ _; rewrite /ID /to_unsigned_int /unsigned_int_bits /=.
by rewrite -[(id + 2 ^ 32)%bZ]/(id + 1 * 2 ^ 32)%bZ Z_mod_plus_full.
Qed.

End Further.

(** X21.  For M below 2^16 the [unsigned int] evaluation of the constants
    does not wrap: [ct_nvertices(M)] is M + 1 and [ct_nedges(M)] is exactly
    M (M + 1) / 2. *)
Theorem ct_constants_exact (M : Z) :
  (0 <= M < 2 ^ 16)%bZ ->
  ct_nvertices_uint M = (M + 1)%bZ /\
  (2 * ct_nedges_uint M)%bZ = (M * (M + 1))%bZ.
Proof.
move=> hM; have [h0 h1] := small_product hM.
rewrite /ct_nvertices_uint /ct_nedges_uint /to_unsigned_int.
rewrite /unsigned_int_bits.
have hv : ((M + 1) mod 2 ^ 32 = M + 1)%bZ.
  by apply: Z.mod_small; lia.
rewrite hv Z.mod_small //; split=> //.
have [k ->] := even_product M.
rewrite (Z.mul_comm 2 k) Z.div_mul; last lia.
lia.
Qed.

(** ** The further properties at concrete elements *)

Lemma surface_triangle_jacobian :
  barycentric_matrix surface_triangle = pid_mx 2.
Proof.
rewrite /barycentric_matrix /surface_triangle /= jacobian_loopE.
apply/matrixP => i j; rewrite !mxE /= /unit_simplex liftK unlift_none.
rewrite !mxE subr0.
by case: eqP => // ->; rewrite ltn_ord.
Qed.

Lemma surface_triangle_full : row_full (barycentric_matrix surface_triangle).
Proof. by rewrite surface_triangle_jacobian /row_full rank_pid_mx. Qed.

Lemma triangle_vertex_ge0 (i : 'I_3) (k : 'I_(1 + 2)) :
  0 <= to_barycentric_coords triangle (coords triangle i) k 0.
Proof.
rewrite /to_barycentric_coords /coords /triangle /= jacobian_loopE.
have h : jacobian_inverse (jacobian (@unit_simplex algR 2 2))
         *m jacobian (@unit_simplex algR 2 2) = 1%:M.
  by rewrite jacobian_unit_simplex jacobian_inverse_square invmx1 mulmx1.
by rewrite (barycentric_vertex i k h) ler0n.
Qed.

Lemma half_unit : 0 <= (2^-1 : algR) <= 1.
Proof.
apply/andP; split; first by rewrite invr_ge0 ler0n.
by rewrite invf_le1 ?ler1n // ltr0n.
Qed.


Lemma barycentric_reconstruction_witness :
  barycentric_matrix triangle \in unitmx /\
  forall x : 'cV[algR]_2,
    affine_combination (coords triangle) (to_barycentric_coords triangle x)
    = x.
Proof.
split; first exact: triangle_unit.
move=> x.
exact: (@barycentric_reconstruction algR 2 0 7%bZ (fun i => Z.of_nat i)
          (@unit_simplex algR 2 2) [:: (-1)%bZ; 3%bZ; 4%bZ] true x
          triangle_unit).
Defined.

Lemma barycentric_projection_witness :
  row_full (barycentric_matrix surface_triangle) /\
  forall x : 'cV[algR]_3,
    (barycentric_matrix surface_triangle)^T
    *m (x - affine_combination (coords surface_triangle)
              (to_barycentric_coords surface_triangle x)) = 0.
Proof.
split; first exact: surface_triangle_full.
move=> x.
exact: (@barycentric_projection algR 2 3 0 8%bZ (fun i => Z.of_nat i)
          (@unit_simplex algR 2 3) [:: (-1)%bZ; 3%bZ; 4%bZ] true x
          surface_triangle_full).
Defined.

Lemma barycentric_of_image_witness :
  row_full (barycentric_matrix surface_triangle) /\
  forall z : 'cV[algR]_2,
    to_barycentric_coords surface_triangle
      (barycentric_matrix surface_triangle *m z
       + coords surface_triangle ord0) = col_mx (1 - vsum z)%:M z.
Proof.
split; first exact: surface_triangle_full.
move=> z.
exact: (@barycentric_of_image algR 2 3 0 8%bZ (fun i => Z.of_nat i)
          (@unit_simplex algR 2 3) [:: (-1)%bZ; 3%bZ; 4%bZ] true z
          surface_triangle_full).
Defined.

Lemma mid_point_barycentric_any_witness :
  row_full (barycentric_matrix surface_triangle) /\
  forall i,
    to_barycentric_coords surface_triangle (mid_point surface_triangle) i 0
    = 1 / (2 + 1)%:R.
Proof.
split; first exact: surface_triangle_full.
move=> i.
exact: (@mid_point_barycentric_any algR 2 3 0 8%bZ (fun i => Z.of_nat i)
          (@unit_simplex algR 2 3) [:: (-1)%bZ; 3%bZ; 4%bZ] true i
          surface_triangle_full).
Defined.

Lemma contains_volume_convex_witness :
  [/\ contains (@euclidean_distance algR) triangle (coords triangle ord0),
      contains (@euclidean_distance algR) triangle
        (coords triangle (lift ord0 ord0)),
      0 <= (2^-1 : algR) <= 1
    & contains (@euclidean_distance algR) triangle
        (2^-1 *: coords triangle ord0
         + (1 - 2^-1) *: coords triangle (lift ord0 ord0))].
Proof.
have h0 : contains (@euclidean_distance algR) triangle (coords triangle ord0).
  exact: (volume_contains_vertex _ _ triangle_unit).
have h1 : contains (@euclidean_distance algR) triangle
            (coords triangle (lift ord0 ord0)).
  exact: (volume_contains_vertex _ _ triangle_unit).
split=> //; first exact: half_unit.
exact: (contains_volume_convex h0 h1 half_unit).
Defined.

Lemma contains_vertices_witness :
  barycentric_matrix triangle \in unitmx /\
  forall i, contains (@euclidean_distance algR) triangle (coords triangle i).
Proof.
split; first exact: triangle_unit.
move=> i.
exact: (@contains_vertices algR (@euclidean_distance algR) 2 0 7%bZ
          (fun i => Z.of_nat i) (@unit_simplex algR 2 2)
          [:: (-1)%bZ; 3%bZ; 4%bZ] true i triangle_unit).
Defined.

Lemma measure_positive_iff_witness :
  measure_assigned 2 3 /\
  (0 < measure surface_triangle)
  = row_full (barycentric_matrix surface_triangle).
Proof.
split; first by [].
exact: (@measure_positive_iff algR 2 3 0 8%bZ (fun i => Z.of_nat i)
          (@unit_simplex algR 2 3) [:: (-1)%bZ; 3%bZ; 4%bZ] true isT).
Defined.

Lemma nonnegative_barycentric_in_box_witness :
  [/\ barycentric_matrix triangle \in unitmx,
      forall k, 0 <= to_barycentric_coords triangle
                       (coords triangle (lift ord0 ord0)) k 0
    & in_box (bounding_box triangle) (coords triangle (lift ord0 ord0))].
Proof.
split; [exact: triangle_unit | exact: triangle_vertex_ge0 |].
exact: (@nonnegative_barycentric_in_box algR 2 0 7%bZ (fun i => Z.of_nat i)
          (@unit_simplex algR 2 2) [:: (-1)%bZ; 3%bZ; 4%bZ] true
          (coords triangle (lift ord0 ord0)) triangle_unit
          (triangle_vertex_ge0 (lift ord0 ord0))).
Defined.

Lemma ID_collision_witness :
  [/\ is_size_t 5%bZ, is_size_t (5 + 2 ^ 32)%bZ
    & ID (make_Element (0 : 'M[algR]_2) (5 + 2 ^ 32)%bZ (fun i => Z.of_nat i)
            (@unit_simplex algR 2 2) [::] false) =
      ID (make_Element (0 : 'M[algR]_2) 5%bZ (fun i => Z.of_nat i)
            (@unit_simplex algR 2 2) [::] false)].
Proof.
have h5 : is_size_t 5%bZ by split; vm_compute.
have h5' : is_size_t (5 + 2 ^ 32)%bZ by split; vm_compute.
split; [exact: h5 | exact: h5' |].
exact: (@ID_collision algR 2 2 0 0 5%bZ (fun i => Z.of_nat i)
          (fun i => Z.of_nat i) (@unit_simplex algR 2 2)
          (@unit_simplex algR 2 2) [::] [::] false false h5 h5').
Defined.

Lemma ct_constants_exact_witness :
  (0 <= 3 < 2 ^ 16)%bZ /\
  ct_nvertices_uint 3 = (3 + 1)%bZ /\
  (2 * ct_nedges_uint 3)%bZ = (3 * (3 + 1))%bZ.
Proof.
have h3 : (0 <= 3 < 2 ^ 16)%bZ by split; vm_compute.
split; first exact: h3.
exact: (ct_constants_exact h3).
Defined.

(** ** The planar element evaluated in binary64 *)


(** Counterexample to C8 as stated for the program: the triangle
    (1e16, 1e16), (1e16 + 4, 1e16 + 6), (1e16, 1e16 + 2) has determinant 8;
    its mid point is rounded to (1e16 + 2, 1e16 + 2), whose barycentric
    coordinates are (1, 1/2, -1/2) and not (1/3, 1/3, 1/3), and the element
    does not contain it. *)
Lemma mid_point_rejected_binary64 :
  let e := Binary64.far_triangle in
  [/\ Binary64.determinant (Binary64.barycentric_matrix e) = 8%float,
      Binary64.mid_point e = (1e16 + 2, 1e16 + 2)%float,
      Binary64.to_barycentric_coords e (Binary64.mid_point e)
      = (1, 0.5, -0.5)%float
    & Binary64.contains e (Binary64.mid_point e) = false].
Proof. by split; vm_compute. Qed.

(** On the unit triangle the first barycentric coordinate of the mid point
    is the binary64 number above [1 / 3]. *)
Example unit_triangle_mid_point_binary64 :
  let e := Binary64.unit_triangle in
  (Binary64.to_barycentric_coords e (Binary64.mid_point e)).1.1
  = 0x1.5555555555556p-2%float /\
  (1 / 3 = 0x1.5555555555555p-2)%float.
Proof. by split; vm_compute. Qed.
